(** * The consensus engine contract of the node (package [consensus])

    A shallow embedding of [consensus/consensus.go]: the reserved
    [SystemAddress], the two chain-reader interfaces, the [Engine]
    interface with its [PoW] and [PoSA] extensions, and a reference
    model of batch header verification.

    Go strings are [string]s, bytes are [Z]s in [0, 256), a fixed-size
    byte array is a [list Z] together with a lemma on its length, a
    possibly-nil pointer or error is an [option], and an interface is a
    record with one field per method. *)

From Stdlib Require Import ZArith Lia Ascii.
From stdpp Require Import base list strings.

Local Open Scope Z_scope.

(** ** Package [encoding/hex] and package [common] *)

Module hex.

(** [fromHexChar]: the value of one hexadecimal digit, in either case. *)
Definition fromHexChar (c : Ascii.ascii) : option Z :=
  let n := Z.of_N (Ascii.N_of_ascii c) in
  if (48 <=? n) && (n <=? 57) then Some (n - 48)
  else if (97 <=? n) && (n <=? 102) then Some (n - 97 + 10)
  else if (65 <=? n) && (n <=? 70) then Some (n - 65 + 10)
  else None.

(** [Decode]: two digits per byte, high nibble first.  Decoding stops at
    the first character that is not a digit, and at a dangling last digit;
    the bytes decoded up to there are kept. *)
Fixpoint Decode (src : list Ascii.ascii) : list Z :=
  match src with
  | p :: q :: rest =>
      match fromHexChar p, fromHexChar q with
      | Some a, Some b => Z.lor (Z.shiftl a 4) b :: Decode rest
      | _, _ => []
      end
  | _ => []
  end.

(** [DecodeString], with the error dropped as [common.Hex2Bytes] drops it. *)
Definition DecodeString (s : string) : list Z :=
  Decode (String.list_ascii_of_string s).

End hex.

Module common.

Definition AddressLength : nat := 20.
Definition HashLength : nat := 32.

(** [Address] is [[AddressLength]byte] and [Hash] is [[HashLength]byte]. *)
Definition Address := list Z.
Definition Hash := list Z.

Definition has0xPrefix (str : string) : bool :=
  match str with
  | String c0 (String c1 _) =>
      Ascii.eqb c0 "0"%char && (Ascii.eqb c1 "x"%char || Ascii.eqb c1 "X"%char)
  | _ => false
  end.

Definition Hex2Bytes (str : string) : list Z := hex.DecodeString str.

(** [FromHex]: the optional prefix is dropped and an odd number of
    digits is completed by a leading ["0"]. *)
Definition FromHex (s : string) : list Z :=
  let s := if has0xPrefix s then String.substring 2 (String.length s - 2)%nat s else s in
  let s := if Nat.odd (String.length s) then String "0"%char s else s in
  Hex2Bytes s.

(** [SetBytes] on a zeroed array: a longer slice is cropped from the
    left, a shorter one is right-aligned. *)
Definition BytesToAddress (b : list Z) : Address :=
  let b := if (AddressLength <? length b)%nat
           then drop (length b - AddressLength)%nat b else b in
  replicate (AddressLength - length b)%nat 0 ++ b.

(** Modelled from the spec: [common.HexToAddress] belongs to package
    [common] of the repository and is not part of this file.  The address
    is the one whose bytes the hexadecimal literal spells out, two digits
    to the byte, fitted to [AddressLength] bytes. *)
Definition HexToAddress (s : string) : Address := BytesToAddress (FromHex s).

(** The address read as a big-endian integer. *)
Definition Big (a : list Z) : Z :=
  fold_left (fun acc b => Z.lor (Z.shiftl acc 8) b) a 0.

End common.

(** ** The reserved address *)

(** The literal as the source spells it. *)
Definition SystemAddress_literal : string :=
  "0xffffFFFfFFffffffffffffffFfFFFfffFFFfFFfE".

Definition SystemAddress : common.Address :=
  common.HexToAddress SystemAddress_literal.

(** The value of each character of a literal after its two-character
    prefix, [None] where the character is no hexadecimal digit. *)
Definition digits (s : string) : list (option Z) :=
  hex.fromHexChar <$>
    String.list_ascii_of_string (String.substring 2 (String.length s - 2)%nat s).

(** The reading of "an all-[f] pattern with one zero byte": one position
    holds [0x00] and every other position holds [0xff]. *)
Definition all_f_with_one_zero_byte (a : common.Address) : Prop :=
  ∃ i : nat, (i < common.AddressLength)%nat ∧
    ∀ j : nat, (j < common.AddressLength)%nat →
      a !! j = Some (if decide (j = i) then 0x00 else 0xff).

(** The zero bits of an address, as positions in its big-endian integer. *)
Definition zero_bits (a : common.Address) : list Z :=
  filter (λ k, Z.testbit (common.Big a) k = false)
         (Z.of_nat <$> seq 0 (8 * common.AddressLength)).

(** ** Declarations imported from other packages

    [types.Header], [types.Block], [types.Transaction], [types.Receipt],
    [state.StateDB], [params.ChainConfig] and [rpc.API] are declared
    outside this file, as are the channel and floating-point types of the
    runtime: they are parameters of the development. *)
Record Imports : Type := {
  Header : Type;
  Block : Type;
  Transaction : Type;
  Receipt : Type;
  StateDB : Type;
  ChainConfig : Type;
  API : Type;
  chan : Type → Type;
  float64 : Type
}.

(** [uint64] arguments are only passed along, never computed with. *)
Definition uint64 := N.
(** [*big.Int]. *)
Definition bigInt := Z.
(** [time.Duration] is an [int64] count of nanoseconds. *)
Definition Duration := Z.
(** An [error] is [nil] or carries its message. *)
Definition error := option string.

(** ** The chain readers *)

Section Readers.
Context (Im : Imports).

(** [ChainHeaderReader]: the methods needed to access the local
    blockchain during header verification.  A [nil] pointer is [None]. *)
Record ChainHeaderReader : Type := {
  Config : option (ChainConfig Im);
  CurrentHeader : option (Header Im);
  GetHeader : common.Hash → uint64 → option (Header Im);
  GetHeaderByNumber : uint64 → option (Header Im);
  GetHeaderByHash : common.Hash → option (Header Im);
  GetHighestVerifiedHeader : option (Header Im)
}.

(** [ChainReader] embeds [ChainHeaderReader] and adds [GetBlock].  Passing
    a [ChainReader] where a [ChainHeaderReader] is expected keeps the
    embedded method set and nothing else. *)
Record ChainReader : Type := {
  ChainReader_ChainHeaderReader :> ChainHeaderReader;
  GetBlock : common.Hash → uint64 → option (Block Im)
}.

End Readers.

Arguments Config {Im} _.
Arguments CurrentHeader {Im} _.
Arguments GetHeader {Im} _ _ _.
Arguments GetHeaderByNumber {Im} _ _.
Arguments GetHeaderByHash {Im} _ _.
Arguments GetHighestVerifiedHeader {Im} _.
Arguments ChainReader_ChainHeaderReader {Im} _.
Arguments GetBlock {Im} _ _ _.

(** ** The engines

    A method is a function of its arguments and of the state [St] the
    receiver owns, and returns its results with the receiver's next state.
    An argument the method may update in place ([header] in [Prepare], and
    the header, state database and referenced sequences in the two
    finalizers) comes back among the results. *)

Section Engines.
Context (Im : Imports) (St : Type).

Definition method (R : Type) : Type := St → R * St.

(** What [Finalize] leaves in the objects it was handed, with its error. *)
Record Finalized : Type := {
  fin_header : Header Im;
  fin_state : StateDB Im;
  fin_txs : list (Transaction Im);
  fin_receipts : list (Receipt Im);
  fin_systemTxs : list (Transaction Im);
  fin_usedGas : uint64;
  fin_err : error
}.

(** What [FinalizeAndAssemble] leaves in the header and state database,
    with the three values it returns. *)
Record Assembled : Type := {
  asm_header : Header Im;
  asm_state : StateDB Im;
  asm_block : option (Block Im);
  asm_receipts : list (Receipt Im);
  asm_err : error
}.

Record Engine : Type := {
  Author : Header Im → method (common.Address * error);
  VerifyHeader : ChainHeaderReader Im → Header Im → bool → method error;
  VerifyHeaders : ChainHeaderReader Im → list (Header Im) → list bool →
                  method (chan Im unit * chan Im error);
  VerifyUncles : ChainReader Im → Block Im → method error;
  Prepare : ChainHeaderReader Im → Header Im → method (Header Im * error);
  Finalize : ChainHeaderReader Im → Header Im → StateDB Im →
             list (Transaction Im) → list (Header Im) → list (Receipt Im) →
             list (Transaction Im) → uint64 → method Finalized;
  FinalizeAndAssemble : ChainHeaderReader Im → Header Im → StateDB Im →
             list (Transaction Im) → list (Header Im) → list (Receipt Im) →
             method Assembled;
  Seal : ChainHeaderReader Im → Block Im → chan Im (option (Block Im)) →
         chan Im unit → method error;
  SealHash : Header Im → method common.Hash;
  CalcDifficulty : ChainHeaderReader Im → uint64 → Header Im → method bigInt;
  APIs : ChainHeaderReader Im → method (list (API Im));
  Delay : ChainReader Im → Header Im → method (option Duration);
  Close : method error
}.

(** [PoW]: an engine based on proof-of-work. *)
Record PoW : Type := {
  PoW_Engine :> Engine;
  Hashrate : method (float64 Im)
}.

Record PoSA : Type := {
  PoSA_Engine :> Engine;
  IsSystemTransaction : Transaction Im → Header Im → method (bool * error);
  IsSystemContract : option common.Address → method bool;
  EnoughDistance : ChainReader Im → Header Im → method bool;
  IsLocalBlock : Header Im → method bool;
  AllowLightProcess : ChainReader Im → Header Im → method bool
}.

End Engines.

Arguments Author {Im St} _ _ _.
Arguments VerifyHeader {Im St} _ _ _ _ _.
Arguments VerifyHeaders {Im St} _ _ _ _ _.
Arguments VerifyUncles {Im St} _ _ _ _.
Arguments Prepare {Im St} _ _ _ _.
Arguments Finalize {Im St} _ _ _ _ _ _ _ _ _ _.
Arguments FinalizeAndAssemble {Im St} _ _ _ _ _ _ _ _.
Arguments Seal {Im St} _ _ _ _ _ _.
Arguments SealHash {Im St} _ _ _.
Arguments CalcDifficulty {Im St} _ _ _ _ _.
Arguments APIs {Im St} _ _ _.
Arguments Delay {Im St} _ _ _ _.
Arguments Close {Im St} _ _.
Arguments PoW_Engine {Im St} _.
Arguments Hashrate {Im St} _ _.
Arguments PoSA_Engine {Im St} _.
Arguments IsSystemTransaction {Im St} _ _ _ _.
Arguments IsSystemContract {Im St} _ _ _.
Arguments EnoughDistance {Im St} _ _ _ _.
Arguments IsLocalBlock {Im St} _ _ _.
Arguments AllowLightProcess {Im St} _ _ _ _.

(** ** The operations of an engine

    The node holds one chain object, a full [ChainReader], and hands it to
    whichever method it calls. *)

Section Calls.
Context {Im : Imports} {St : Type}.

(** A call of a method of [PoSA] (and so of [Engine]) with every
    argument but the chain. *)
Inductive operation : Type :=
| OpAuthor (header : Header Im)
| OpVerifyHeader (header : Header Im) (seal : bool)
| OpVerifyHeaders (headers : list (Header Im)) (seals : list bool)
| OpVerifyUncles (block : Block Im)
| OpPrepare (header : Header Im)
| OpFinalize (header : Header Im) (state : StateDB Im)
    (txs : list (Transaction Im)) (uncles : list (Header Im))
    (receipts : list (Receipt Im)) (systemTxs : list (Transaction Im))
    (usedGas : uint64)
| OpFinalizeAndAssemble (header : Header Im) (state : StateDB Im)
    (txs : list (Transaction Im)) (uncles : list (Header Im))
    (receipts : list (Receipt Im))
| OpSeal (block : Block Im) (results : chan Im (option (Block Im)))
    (stop : chan Im unit)
| OpSealHash (header : Header Im)
| OpCalcDifficulty (time : uint64) (parent : Header Im)
| OpAPIs
| OpDelay (header : Header Im)
| OpClose
| OpIsSystemTransaction (tx : Transaction Im) (header : Header Im)
| OpIsSystemContract (to : option common.Address)
| OpEnoughDistance (header : Header Im)
| OpIsLocalBlock (header : Header Im)
| OpAllowLightProcess (currentHeader : Header Im).

Definition result (op : operation) : Type :=
  match op with
  | OpAuthor _ => common.Address * error
  | OpVerifyHeader _ _ => error
  | OpVerifyHeaders _ _ => chan Im unit * chan Im error
  | OpVerifyUncles _ => error
  | OpPrepare _ => Header Im * error
  | OpFinalize _ _ _ _ _ _ _ => Finalized Im
  | OpFinalizeAndAssemble _ _ _ _ _ => Assembled Im
  | OpSeal _ _ _ => error
  | OpSealHash _ => common.Hash
  | OpCalcDifficulty _ _ => bigInt
  | OpAPIs => list (API Im)
  | OpDelay _ => option Duration
  | OpClose => error
  | OpIsSystemTransaction _ _ => bool * error
  | OpIsSystemContract _ => bool
  | OpEnoughDistance _ => bool
  | OpIsLocalBlock _ => bool
  | OpAllowLightProcess _ => bool
  end.

(** The header-phase operations. *)
Definition header_phase (op : operation) : bool :=
  match op with
  | OpAuthor _ | OpVerifyHeader _ _ | OpVerifyHeaders _ _ | OpPrepare _
  | OpFinalize _ _ _ _ _ _ _ | OpFinalizeAndAssemble _ _ _ _ _
  | OpSeal _ _ _ | OpSealHash _ | OpCalcDifficulty _ _ | OpAPIs => true
  | _ => false
  end.

(** The operations whose chain parameter is the full [ChainReader]. *)
Definition takes_ChainReader (op : operation) : bool :=
  match op with
  | OpVerifyUncles _ | OpDelay _ | OpEnoughDistance _
  | OpAllowLightProcess _ => true
  | _ => false
  end.

(** Two chains that answer every header query alike; their stored blocks
    may differ. *)
Definition same_headers (c1 c2 : ChainReader Im) : Prop :=
  ChainReader_ChainHeaderReader c1 = ChainReader_ChainHeaderReader c2.

(** An engine like [E0] whose four methods on a [ChainReader] report
    whether [GetBlock] finds a block under the zero hash at height 0. *)
Definition zeroHash : common.Hash := replicate common.HashLength 0.

Definition finds_block (chain : ChainReader Im) : bool :=
  match GetBlock chain zeroHash 0%N with Some _ => true | None => false end.

Definition probing_Engine (E0 : Engine Im St) : Engine Im St :=
  {| Author := Author E0;
     VerifyHeader := VerifyHeader E0;
     VerifyHeaders := VerifyHeaders E0;
     VerifyUncles := λ chain _ s,
       (if finds_block chain then Some "uncle found" else None, s);
     Prepare := Prepare E0;
     Finalize := Finalize E0;
     FinalizeAndAssemble := FinalizeAndAssemble E0;
     Seal := Seal E0;
     SealHash := SealHash E0;
     CalcDifficulty := CalcDifficulty E0;
     APIs := APIs E0;
     Delay := λ chain _ s, (if finds_block chain then Some 0 else None, s);
     Close := Close E0 |}.

Definition probing (E0 : PoSA Im St) : PoSA Im St :=
  {| PoSA_Engine := probing_Engine E0;
     IsSystemTransaction := IsSystemTransaction E0;
     IsSystemContract := IsSystemContract E0;
     EnoughDistance := λ chain _ s, (finds_block chain, s);
     IsLocalBlock := IsLocalBlock E0;
     AllowLightProcess := λ chain _ s, (finds_block chain, s) |}.

(** [hr] extended with a block store. *)
Definition with_blocks (hr : ChainHeaderReader Im)
    (blocks : common.Hash → uint64 → option (Block Im)) : ChainReader Im :=
  {| ChainReader_ChainHeaderReader := hr; GetBlock := blocks |}.

End Calls.

(** ** Interface values and implementations

    A parameter of interface type holds the caller's object itself: the
    conversion of a [ChainReader] to a [ChainHeaderReader] keeps the object,
    method calls on the parameter reach the declared methods, and a type
    assertion on it recovers what the object has beyond them.  The records
    [Engine] and [PoSA] describe the methods by what they do with the
    declared methods of their chain argument; an [Implementation] is a set
    of method bodies that see the argument itself. *)

Section Implementations.
Context {Im : Imports}.

(** The operations without a chain parameter. *)
Definition takes_no_chain (op : @operation Im) : bool :=
  match op with
  | OpAuthor _ | OpSealHash _ | OpClose | OpIsSystemTransaction _ _
  | OpIsSystemContract _ | OpIsLocalBlock _ => true
  | _ => false
  end.

(** The chain parameter a method is declared with. *)
Inductive chain_parameter : Type :=
| NoChain
| HeaderReader
| FullReader.

Definition parameter_of (op : @operation Im) : chain_parameter :=
  if takes_ChainReader op then FullReader
  else if takes_no_chain op then NoChain
  else HeaderReader.

(** The value of a parameter of type [ChainHeaderReader]: an object whose
    dynamic type has the header methods only, or one whose dynamic type has
    [GetBlock] as well. *)
Inductive chain_value : Type :=
| header_chain (hr : ChainHeaderReader Im)
| block_chain (cr : ChainReader Im).

(** The declared methods of the value, as a call [chain.GetHeader(...)]
    reaches them. *)
Definition declared (chain : chain_value) : ChainHeaderReader Im :=
  match chain with
  | header_chain hr => hr
  | block_chain cr => ChainReader_ChainHeaderReader cr
  end.

(** The type assertion [chain.(ChainReader)], [None] where it fails. *)
Definition assert_ChainReader (chain : chain_value) : option (ChainReader Im) :=
  match chain with
  | header_chain _ => None
  | block_chain cr => Some cr
  end.

(** What a method body is handed for its chain parameter. *)
Definition handed_at (p : chain_parameter) : Type :=
  match p with
  | NoChain => unit
  | HeaderReader => chain_value
  | FullReader => ChainReader Im
  end.

Definition handed (op : @operation Im) : Type := handed_at (parameter_of op).

(** The method bodies of an implementation of [PoSA] with receiver state
    [St]: one for each call, given what the call hands over for a chain. *)
Definition Implementation (St : Type) : Type :=
  ∀ op : @operation Im, handed op → method St (result op).

(** The caller's side: the chain object is converted to the type of the
    parameter, which keeps the object. *)
Definition hand_at (chain : ChainReader Im) (p : chain_parameter) : handed_at p :=
  match p with
  | NoChain => tt
  | HeaderReader => block_chain chain
  | FullReader => chain
  end.

(** The call of an operation by a node whose chain object is [chain]. *)
Definition call {St : Type} (G : Implementation St) (chain : ChainReader Im)
    (op : @operation Im) : method St (result op) :=
  G op (hand_at chain (parameter_of op)).

(** The implementation whose bodies are the methods of [E]: each reaches
    its chain argument through the declared methods and in no other way. *)
Definition by_declared_methods {St : Type} (E : PoSA Im St) : Implementation St :=
  λ op,
    match op return handed op → method St (result op) with
    | OpAuthor header => λ _, Author E header
    | OpVerifyHeader header seal =>
        λ chain, VerifyHeader E (declared chain) header seal
    | OpVerifyHeaders headers seals =>
        λ chain, VerifyHeaders E (declared chain) headers seals
    | OpVerifyUncles block => λ chain, VerifyUncles E chain block
    | OpPrepare header => λ chain, Prepare E (declared chain) header
    | OpFinalize header state txs uncles receipts systemTxs usedGas =>
        λ chain, Finalize E (declared chain) header state txs uncles receipts
                   systemTxs usedGas
    | OpFinalizeAndAssemble header state txs uncles receipts =>
        λ chain, FinalizeAndAssemble E (declared chain) header state txs
                   uncles receipts
    | OpSeal block results stop =>
        λ chain, Seal E (declared chain) block results stop
    | OpSealHash header => λ _, SealHash E header
    | OpCalcDifficulty time parent =>
        λ chain, CalcDifficulty E (declared chain) time parent
    | OpAPIs => λ chain, APIs E (declared chain)
    | OpDelay header => λ chain, Delay E chain header
    | OpClose => λ _, Close E
    | OpIsSystemTransaction tx header => λ _, IsSystemTransaction E tx header
    | OpIsSystemContract to => λ _, IsSystemContract E to
    | OpEnoughDistance header => λ chain, EnoughDistance E chain header
    | OpIsLocalBlock header => λ _, IsLocalBlock E header
    | OpAllowLightProcess currentHeader =>
        λ chain, AllowLightProcess E chain currentHeader
    end.

(** Two arguments that a body using the declared methods only cannot tell
    apart. *)
Definition same_methods_at (p : chain_parameter)
  : handed_at p → handed_at p → Prop :=
  match p with
  | NoChain => λ _ _, True
  | HeaderReader => λ chain1 chain2, declared chain1 = declared chain2
  | FullReader => λ chain1 chain2, chain1 = chain2
  end.

(** An implementation none of whose bodies uses a type assertion on its
    chain argument. *)
Definition uses_declared_methods_only {St : Type} (G : Implementation St) : Prop :=
  ∀ (op : @operation Im) (a1 a2 : handed op),
    same_methods_at (parameter_of op) a1 a2 → G op a1 = G op a2.

(** An operation whose outcome under [G] is the same on any two chains
    that answer every header query alike. *)
Definition blind_to_blocks {St : Type} (G : Implementation St)
    (op : @operation Im) : Prop :=
  ∀ (c1 c2 : ChainReader Im) (s : St),
    same_headers c1 c2 → call G c1 op s = call G c2 op s.

(** What a body can learn of the stored blocks from what it is handed:
    nothing without a chain, and otherwise whether [GetBlock] finds a block
    under the zero hash at height 0, the method being reached by a type
    assertion where the parameter is a [ChainHeaderReader]. *)
Definition peek_at (p : chain_parameter) : handed_at p → option bool :=
  match p with
  | NoChain => λ _, None
  | HeaderReader => λ chain,
      Some (match assert_ChainReader chain with
            | Some full => finds_block full
            | None => false
            end)
  | FullReader => λ chain, Some (finds_block chain)
  end.

(** An implementation like [E0] that keeps a flag beside the state of [E0]
    and notes in it, in every body that is handed a chain, what it learns
    of the stored blocks. *)
Definition peeking {St : Type} (E0 : PoSA Im St) : Implementation (St * bool) :=
  λ op a sb,
    let (r, s') := by_declared_methods E0 op a (fst sb) in
    (r, (s', match peek_at (parameter_of op) a with
             | Some found => found
             | None => snd sb
             end)).

End Implementations.

Arguments chain_value : clear implicits.
Arguments Implementation : clear implicits.

(* A record literal takes its parameters from the type expected of it. *)
Arguments Build_ChainHeaderReader _ & _ _ _ _ _ _.
Arguments Build_ChainReader _ & _ _.
Arguments Build_Finalized _ & _ _ _ _ _ _ _.
Arguments Build_Assembled _ & _ _ _ _ _.
Arguments Build_Engine _ _ & _ _ _ _ _ _ _ _ _ _ _ _ _.
Arguments Build_PoSA _ _ & _ _ _ _ _ _.

(** ** A sample chain and a sample engine

    Headers, blocks and the other imported values are numbers, a header
    being its timestamp, and a channel is the list of what it holds.  The
    sample engine accepts a header whose timestamp is later than that of
    the chain's current header. *)

Definition sampleImports : Imports :=
  {| Header := N; Block := N; Transaction := N; Receipt := N; StateDB := N;
     ChainConfig := N; API := string; chan := list; float64 := Z |}.

Definition sampleHeaderReader : ChainHeaderReader sampleImports :=
  {| Config := Some 56%N;
     CurrentHeader := Some 10%N;
     GetHeader := λ _ number, if (number <=? 10)%N then Some number else None;
     GetHeaderByNumber := λ number, if (number <=? 10)%N then Some number else None;
     GetHeaderByHash := λ _, None;
     GetHighestVerifiedHeader := Some 10%N |}.

Definition sampleEngine : Engine sampleImports unit :=
  {| Author := λ _ s, ((SystemAddress, None), s);
     VerifyHeader := λ chain header _ s,
       (match CurrentHeader chain with
        | None => Some "unknown ancestor"
        | Some parent =>
            if (parent <? header)%N then None else Some "invalid timestamp"
        end, s);
     VerifyHeaders := λ _ _ _ s, (([], []), s);
     VerifyUncles := λ _ _ s, (None, s);
     Prepare := λ _ header s, ((header, None), s);
     Finalize := λ _ header state txs _ receipts systemTxs usedGas s,
       ({| fin_header := header; fin_state := state; fin_txs := txs;
           fin_receipts := receipts; fin_systemTxs := systemTxs;
           fin_usedGas := usedGas; fin_err := None |}, s);
     FinalizeAndAssemble := λ _ header state _ _ receipts s,
       ({| asm_header := header; asm_state := state; asm_block := Some header;
           asm_receipts := receipts; asm_err := None |}, s);
     Seal := λ _ _ _ _ s, (None, s);
     SealHash := λ _ s, (replicate common.HashLength 0, s);
     CalcDifficulty := λ _ _ _ s, (2, s);
     APIs := λ _ s, ([], s);
     Delay := λ _ _ s, (None, s);
     Close := λ s, (None, s) |}.

Definition samplePoSA : PoSA sampleImports unit :=
  {| PoSA_Engine := sampleEngine;
     IsSystemTransaction := λ _ _ s, ((false, None), s);
     IsSystemContract := λ _ s, (false, s);
     EnoughDistance := λ _ _ s, (true, s);
     IsLocalBlock := λ _ s, (false, s);
     AllowLightProcess := λ _ _ s, (false, s) |}.

(** Five headers, the third with a timestamp that is too early. *)
Definition sampleHeaders : list (Header sampleImports) :=
  [11%N; 12%N; 3%N; 14%N; 15%N].

Definition sampleSeals : list bool := [true; true; true; true; true].

(** The sample engine with another [Prepare]: it asserts its chain argument
    to be a [ChainReader] and refuses the header if a block is stored under
    the zero hash at height 0. *)
Definition samplePeekingPrepare : Implementation sampleImports unit :=
  λ op,
    match op return handed op → method unit (result op) with
    | OpPrepare header => λ chain s,
        match assert_ChainReader chain with
        | Some full =>
            if finds_block full then ((header, Some "block found"), s)
            else ((header, None), s)
        | None => ((header, None), s)
        end
    | op' => by_declared_methods samplePoSA op'
    end.

(** ** Batch header verification

    This file declares [VerifyHeaders] and no more; its bodies are in the
    engine packages.  The model below follows sections 4.1 and 5 of the
    specification: the batch is verified by worker tasks, each header by
    the engine's own [VerifyHeader]; a coordinator hands the indices out in
    input order, keeps each finished result in the slot of its index, and
    sends the results in input order on the results channel; observing the
    cancel signal stops the coordinator, and the workers leave once it has
    stopped.  Which task moves next is not fixed: an execution is any
    sequence of [event]s the state allows. *)

Local Open Scope nat_scope.

Inductive worker : Type :=
| Idle
| Busy (index : nat)
| Exited.

Inductive coordinator : Type :=
| Running
| Finished
| Aborted.

(** Modelled from the spec: the state of a running [VerifyHeaders], whose
    body is not in this file.  [next_in] is the next index to hand out,
    [workers] what each worker task is doing, [errors] the slot of each
    header, filled once the header is verified, [out] the number of results
    sent, [results] the results channel, oldest first, and [coord] the
    coordinator. *)
Record verifier : Type := {
  next_in : nat;
  workers : list worker;
  errors : list (option error);
  out : nat;
  results : list error;
  coord : coordinator
}.

(** One move of one task: the coordinator hands the next index to the idle
    worker [w]; worker [w] finishes the header it holds; the coordinator
    sends the next result in line; the coordinator finishes after the last
    result; the coordinator observes the cancel signal; worker [w] leaves. *)
Inductive event : Type :=
| HandOut (w : nat)
| Complete (w : nat)
| Deliver
| Done
| Abort
| Exit (w : nat).

Definition is_Running (c : coordinator) : bool :=
  match c with Running => true | _ => false end.

Definition weight (w : worker) : nat :=
  match w with Busy _ => 2 | Idle => 1 | Exited => 0 end.

Section BatchVerifier.
Context {Im : Imports} {St : Type}.
Context (E : Engine Im St) (chain : ChainHeaderReader Im) (s : St).
Context (headers : list (Header Im)) (seals : list bool) (threads : nat).

(** Verification reads the engine and the chain and leaves both as they
    were: the engine's next state is dropped. *)
Definition verifyHeaderWorker (index : nat) : option error :=
  match headers !! index, seals !! index with
  | Some header, Some seal => Some (fst (VerifyHeader E chain header seal s))
  | _, _ => None
  end.

(** The verdicts of the batch, header by header. *)
Definition verdicts : list error :=
  zip_with (λ header seal, fst (VerifyHeader E chain header seal s)) headers seals.

(** Modelled from the spec: the start of [VerifyHeaders], whose body is
    not in this file.  It returns at once, with no more workers than
    headers, nothing handed out and nothing sent; a batch whose [seals] do
    not match its [headers] is refused on the spot. *)
Definition spawn : option verifier :=
  if (length seals =? length headers)%nat then
    Some {| next_in := 0;
            workers := replicate (threads `min` length headers) Idle;
            errors := replicate (length headers) None;
            out := 0;
            results := [];
            coord := Running |}
  else None.

(** Modelled from the spec: the moves of the tasks of [VerifyHeaders],
    whose body is not in this file.  The coordinator hands out and sends
    only while it runs; a worker finishes the header it holds whatever the
    coordinator does, and leaves only when the coordinator has stopped. *)
Definition step (ev : event) (v : verifier) : option verifier :=
  match ev with
  | HandOut w =>
      match workers v !! w with
      | Some Idle =>
          if is_Running (coord v) && (next_in v <? length headers)%nat then
            Some {| next_in := S (next_in v);
                    workers := <[w := Busy (next_in v)]> (workers v);
                    errors := errors v;
                    out := out v;
                    results := results v;
                    coord := coord v |}
          else None
      | _ => None
      end
  | Complete w =>
      match workers v !! w with
      | Some (Busy index) =>
          match verifyHeaderWorker index with
          | Some err =>
              Some {| next_in := next_in v;
                      workers := <[w := Idle]> (workers v);
                      errors := <[index := Some err]> (errors v);
                      out := out v;
                      results := results v;
                      coord := coord v |}
          | None => None
          end
      | _ => None
      end
  | Deliver =>
      match errors v !! out v with
      | Some (Some err) =>
          if is_Running (coord v) then
            Some {| next_in := next_in v;
                    workers := workers v;
                    errors := errors v;
                    out := S (out v);
                    results := results v ++ [err];
                    coord := coord v |}
          else None
      | _ => None
      end
  | Done =>
      if is_Running (coord v) && (out v =? length headers)%nat then
        Some {| next_in := next_in v;
                workers := workers v;
                errors := errors v;
                out := out v;
                results := results v;
                coord := Finished |}
      else None
  | Abort =>
      if is_Running (coord v) then
        Some {| next_in := next_in v;
                workers := workers v;
                errors := errors v;
                out := out v;
                results := results v;
                coord := Aborted |}
      else None
  | Exit w =>
      match workers v !! w with
      | Some Idle =>
          if is_Running (coord v) then None
          else
            Some {| next_in := next_in v;
                    workers := <[w := Exited]> (workers v);
                    errors := errors v;
                    out := out v;
                    results := results v;
                    coord := coord v |}
      | _ => None
      end
  end.

(** An execution: the events are taken in turn, and each must be allowed. *)
Fixpoint run (evs : list event) (v : verifier) : option verifier :=
  match evs with
  | [] => Some v
  | ev :: evs' =>
      match step ev v with
      | Some v' => run evs' v'
      | None => None
      end
  end.

(** Nothing but a cancellation can still happen. *)
Definition quiescent (v : verifier) : Prop :=
  ∀ ev, ev ≠ Abort → step ev v = None.

(** Nothing at all can still happen. *)
Definition halted (v : verifier) : Prop := ∀ ev, step ev v = None.

Definition all_exited (v : verifier) : Prop :=
  Forall (λ w, w = Exited) (workers v).

(** What is left to do: indices to hand out, results to send, work in the
    workers' hands, and the coordinator itself. *)
Definition remaining (v : verifier) : nat :=
  3 * (length headers - next_in v) + (length headers - out v)
  + sum_list (weight <$> workers v)
  + (if is_Running (coord v) then 1 else 0).

Record invariant (v : verifier) : Prop := {
  inv_errors_length : length (errors v) = length headers;
  inv_workers_length : length (workers v) = threads `min` length headers;
  inv_out : out v ≤ next_in v;
  inv_next_in : next_in v ≤ length headers;
  inv_results : results v = take (out v) verdicts;
  inv_errors : ∀ index err,
    errors v !! index = Some (Some err) →
    index < next_in v ∧ verdicts !! index = Some err;
  inv_handed : ∀ index, index < next_in v →
    (∃ err, errors v !! index = Some (Some err))
    ∨ (∃ w, workers v !! w = Some (Busy index));
  inv_busy : ∀ w index, workers v !! w = Some (Busy index) → index < next_in v;
  inv_running : coord v = Running → ∀ w, workers v !! w ≠ Some Exited;
  inv_finished : coord v = Finished → out v = length headers
}.

Ltac step_cases H :=
  match type of H with
  | step ?ev _ = _ => unfold step in H; destruct ev
  end;
  repeat match type of H with
         | context [match ?x with _ => _ end] =>
             lazymatch type of x with
             | verifier => fail
             | _ => destruct x eqn:?; try discriminate H
             end
         end;
  injection H as <-;
  repeat match goal with
         | Hb : _ && _ = true |- _ => apply andb_true_iff in Hb as [? ?]
         | Hb : (_ <? _) = true |- _ => apply Nat.ltb_lt in Hb
         | Hb : (_ =? _) = true |- _ => apply Nat.eqb_eq in Hb
         | Hb : is_Running ?c = true |- _ =>
             assert (c = Running) by (destruct c; (reflexivity || discriminate Hb));
             clear Hb
         | Hb : is_Running ?c = false |- _ =>
             assert (c ≠ Running) by (intros Hx; rewrite Hx in Hb; discriminate Hb);
             clear Hb
         end.

Hypothesis seals_match : length seals = length headers.
Hypothesis some_thread : 0 < threads.

Lemma weight_insert (l : list worker) (w : nat) (x y : worker) :
  l !! w = Some x →
  sum_list (weight <$> <[w := y]> l) + weight x
  = sum_list (weight <$> l) + weight y.
Proof.
  revert w. induction l as [ | a l IH ]; intros [ | w ] Hw; simpl in *;
    try discriminate.
  - injection Hw as ->. clear IH. lia.
  - specialize (IH w Hw). unfold fmap in IH. lia.
Qed.

Lemma verdicts_length : length verdicts = length headers.
Proof. unfold verdicts. rewrite length_zip_with. lia. Qed.

Lemma verifyHeaderWorker_verdicts (index : nat) :
  verifyHeaderWorker index = verdicts !! index.
Proof.
  unfold verifyHeaderWorker, verdicts. rewrite lookup_zip_with.
  destruct (headers !! index); simpl; [ | reflexivity ].
  destruct (seals !! index); reflexivity.
Qed.

Lemma verifyHeaderWorker_in_range (index : nat) :
  index < length headers → is_Some (verifyHeaderWorker index).
Proof.
  intros Hi. rewrite verifyHeaderWorker_verdicts.
  apply lookup_lt_is_Some. rewrite verdicts_length. exact Hi.
Qed.

Lemma spawn_invariant (v0 : verifier) : spawn = Some v0 → invariant v0.
Proof.
  unfold spawn. rewrite seals_match, Nat.eqb_refl. intros [= <-].
  split; simpl; try lia.
  - apply length_replicate.
  - apply length_replicate.
  - reflexivity.
  - intros index err Hl. apply lookup_replicate in Hl as [? _]. discriminate.
  - intros w index Hl. apply lookup_replicate in Hl as [? _]. discriminate.
  - intros _ w Hl. apply lookup_replicate in Hl as [? _]. discriminate.
  - discriminate.
Qed.

Lemma spawn_remaining (v0 : verifier) :
  spawn = Some v0 → remaining v0 ≤ 4 * length headers + threads + 1.
Proof.
  unfold spawn. rewrite seals_match, Nat.eqb_refl. intros [= <-].
  unfold remaining; simpl.
  assert (Hsum : ∀ k, sum_list (weight <$> replicate k Idle) = k).
  { induction k as [ | k IH ]; simpl; [ reflexivity | ].
    unfold fmap in IH. rewrite IH. reflexivity. }
  rewrite Hsum. lia.
Qed.

Lemma step_invariant (ev : event) (v v' : verifier) :
  invariant v → step ev v = Some v' → invariant v'.
Proof.
  intros [Hel Hwl Hout Hin Hres Herr Hhanded Hbusy Hrun Hfin] Hstep.
  step_cases Hstep; split; simpl; try assumption; try lia;
    try (intros; congruence); try (rewrite ?length_insert; assumption).
  - (* HandOut: the new index is in the hands of worker w *)
    intros index err Hl. apply Herr in Hl as [? ?]. split; [ lia | assumption ].
  - intros index Hi. destruct (decide (index = next_in v)) as [-> | Hne].
    + right. exists w. apply list_lookup_insert_eq.
      eapply lookup_lt_Some; eassumption.
    + destruct (Hhanded index ltac:(lia)) as [Hdone | [w1 Hw1]];
        [ left; exact Hdone | right ].
      exists w1. rewrite list_lookup_insert_ne; [ exact Hw1 | ].
      intros <-. congruence.
  - intros w1 index Hl.
    apply list_lookup_insert_Some in Hl as [(_ & [= <-] & _) | (_ & Hl)];
      [ lia | apply Hbusy in Hl; lia ].
  - intros _ w1 Hl.
    apply list_lookup_insert_Some in Hl as [(_ & ? & _) | (_ & Hl)];
      [ discriminate | eapply Hrun; eassumption ].
  - (* Complete: the verdict lands in the slot of its index *)
    intros index0 err Hl.
    apply list_lookup_insert_Some in Hl as [(<- & [= <-] & _) | (_ & Hl)];
      [ | apply Herr; exact Hl ].
    split; [ eapply Hbusy; eassumption | ].
    rewrite <- verifyHeaderWorker_verdicts. assumption.
  - intros index0 Hi. destruct (decide (index0 = index)) as [-> | Hne].
    + left. exists e. apply list_lookup_insert_eq.
      rewrite Hel. apply Hbusy in Heqo. lia.
    + destruct (Hhanded index0 Hi) as [[err Hdone] | [w1 Hw1]].
      * left. exists err. rewrite list_lookup_insert_ne; [ exact Hdone | congruence ].
      * right. exists w1. rewrite list_lookup_insert_ne; [ exact Hw1 | ].
        intros <-. congruence.
  - intros w1 index0 Hl.
    apply list_lookup_insert_Some in Hl as [(_ & ? & _) | (_ & Hl)];
      [ discriminate | eapply Hbusy; eassumption ].
  - intros Hc w1 Hl.
    apply list_lookup_insert_Some in Hl as [(_ & ? & _) | (_ & Hl)];
      [ discriminate | eapply Hrun; eassumption ].
  - (* Deliver: the next result in line is sent *)
    apply Herr in Heqo as [? _]. lia.
  - apply Herr in Heqo as [Hlt Hv].
    rewrite (take_S_r _ _ _ Hv). congruence.
  - (* Exit *)
    intros index Hi. destruct (Hhanded index Hi) as [Hdone | [w1 Hw1]];
      [ left; exact Hdone | right ].
    exists w1. rewrite list_lookup_insert_ne; [ exact Hw1 | ].
    intros <-. congruence.
  - intros w1 index Hl.
    apply list_lookup_insert_Some in Hl as [(_ & ? & _) | (_ & Hl)];
      [ discriminate | eapply Hbusy; eassumption ].
Qed.

Lemma step_remaining (ev : event) (v v' : verifier) :
  invariant v → step ev v = Some v' → remaining v' < remaining v.
Proof.
  intros [Hel Hwl Hout Hin Hres Herr Hhanded Hbusy Hrun Hfin] Hstep.
  unfold remaining. step_cases Hstep; simpl;
    destruct (coord v) eqn:Hc; simpl; try congruence.
  all: try (apply Herr in Heqo as [? _]); try lia.
  all: match goal with
       | Hl : workers ?u !! _ = Some _ |- context [<[_ := ?y]> (workers ?u)] =>
           pose proof (weight_insert _ _ _ y Hl) as Hw; simpl in Hw; lia
       end.
Qed.

Lemma run_invariant (evs : list event) (v v' : verifier) :
  invariant v → run evs v = Some v' → invariant v'.
Proof.
  revert v. induction evs as [ | ev evs IH ]; simpl; intros v Hinv Hrun.
  - congruence.
  - destruct (step ev v) as [v1 | ] eqn:Hstep; [ | discriminate ].
    eapply IH; [ eapply step_invariant | ]; eassumption.
Qed.

Lemma run_remaining (evs : list event) (v v' : verifier) :
  invariant v → run evs v = Some v' → length evs + remaining v' ≤ remaining v.
Proof.
  revert v. induction evs as [ | ev evs IH ]; simpl; intros v Hinv Hrun.
  - injection Hrun as <-. lia.
  - destruct (step ev v) as [v1 | ] eqn:Hstep; [ | discriminate ].
    pose proof (step_remaining _ _ _ Hinv Hstep).
    pose proof (IH v1 (step_invariant _ _ _ Hinv Hstep) Hrun). lia.
Qed.

(** Without a cancellation the coordinator is never aborted. *)
Lemma run_not_aborted (evs : list event) (v v' : verifier) :
  Abort ∉ evs → coord v ≠ Aborted → run evs v = Some v' → coord v' ≠ Aborted.
Proof.
  revert v. induction evs as [ | ev evs IH ]; simpl; intros v Hno Hc Hrun.
  - congruence.
  - destruct (step ev v) as [v1 | ] eqn:Hstep; [ | discriminate ].
    apply not_elem_of_cons in Hno as [Hne Hno].
    eapply (IH v1); [ exact Hno | | exact Hrun ].
    step_cases Hstep; simpl; congruence.
Qed.

(** Either some worker holds a header, or none does. *)
Lemma busy_or_not (l : list worker) :
  (∃ w index, l !! w = Some (Busy index))
  ∨ (∀ w index, l !! w ≠ Some (Busy index)).
Proof.
  induction l as [ | a l [(w & index & Hw) | Hnone] ].
  - right. intros w index. rewrite lookup_nil. discriminate.
  - left. exists (S w), index. exact Hw.
  - destruct a as [ | index | ].
    + right. intros [ | w ] index; simpl; [ discriminate | apply Hnone ].
    + left. exists 0, index. reflexivity.
    + right. intros [ | w ] index; simpl; [ discriminate | apply Hnone ].
Qed.

(** Either some worker is idle, or none is. *)
Lemma idle_or_not (l : list worker) :
  (∃ w, l !! w = Some Idle) ∨ (∀ w, l !! w ≠ Some Idle).
Proof.
  induction l as [ | a l [(w & Hw) | Hnone] ].
  - right. intros w. rewrite lookup_nil. discriminate.
  - left. exists (S w). exact Hw.
  - destruct a as [ | index | ].
    + left. exists 0. reflexivity.
    + right. intros [ | w ]; simpl; [ discriminate | apply Hnone ].
    + right. intros [ | w ]; simpl; [ discriminate | apply Hnone ].
Qed.

Lemma complete_enabled (v : verifier) (w index : nat) :
  invariant v → workers v !! w = Some (Busy index) →
  is_Some (step (Complete w) v).
Proof.
  intros Hinv Hw. unfold step. rewrite Hw.
  destruct (verifyHeaderWorker_in_range index) as [err ->]; [ | eexists; reflexivity ].
  pose proof (inv_busy v Hinv _ _ Hw). pose proof (inv_next_in v Hinv). lia.
Qed.

(** While the coordinator runs, something other than a cancellation can
    happen. *)
Lemma running_progress (v : verifier) :
  invariant v → coord v = Running →
  ∃ ev v', ev ≠ Abort ∧ step ev v = Some v'.
Proof.
  intros Hinv Hc.
  destruct (busy_or_not (workers v)) as [(w & index & Hw) | Hnobusy].
  { destruct (complete_enabled v w index Hinv Hw) as [v' Hv'].
    exists (Complete w), v'. split; [ discriminate | exact Hv' ]. }
  destruct (decide (out v = length headers)) as [Hout | Hout].
  { exists Done. eexists. split; [ discriminate | ].
    unfold step. rewrite Hc. simpl. rewrite Hout, Nat.eqb_refl. reflexivity. }
  destruct (decide (next_in v = length headers)) as [Hin | Hin].
  - (* everything is handed out and no worker is busy: the next result is there *)
    pose proof (inv_out v Hinv). pose proof (inv_next_in v Hinv).
    destruct (inv_handed v Hinv (out v) ltac:(lia)) as [[err Herr] | [w Hw]];
      [ | exfalso; exact (Hnobusy _ _ Hw) ].
    exists Deliver. eexists. split; [ discriminate | ].
    unfold step. rewrite Herr, Hc. reflexivity.
  - (* a header is left and every worker is idle *)
    pose proof (inv_next_in v Hinv).
    assert (Hw0 : workers v !! 0 = Some Idle).
    { destruct (workers v !! 0) as [ [ | index | ] | ] eqn:Hl.
      - reflexivity.
      - exfalso. exact (Hnobusy _ _ Hl).
      - exfalso. exact (inv_running v Hinv Hc _ Hl).
      - apply lookup_ge_None in Hl. rewrite (inv_workers_length v Hinv) in Hl. lia. }
    exists (HandOut 0). eexists. split; [ discriminate | ].
    unfold step. rewrite Hw0, Hc. simpl.
    destruct (Nat.ltb_spec (next_in v) (length headers)); [ reflexivity | lia ].
Qed.

(** Once the coordinator is gone, a worker that has not left can move. *)
Lemma stopped_progress (v : verifier) :
  invariant v → coord v ≠ Running →
  (∃ ev v', ev ≠ Abort ∧ step ev v = Some v') ∨ all_exited v.
Proof.
  intros Hinv Hc.
  destruct (busy_or_not (workers v)) as [(w & index & Hw) | Hnobusy].
  { left. destruct (complete_enabled v w index Hinv Hw) as [v' Hv'].
    exists (Complete w), v'. split; [ discriminate | exact Hv' ]. }
  destruct (idle_or_not (workers v)) as [(w & Hw) | Hnoidle].
  { left. exists (Exit w). unfold step. rewrite Hw.
    destruct (coord v); [ congruence | | ]; simpl;
      eexists; (split; [ discriminate | reflexivity ]). }
  right. apply Forall_lookup. intros w x Hx.
  destruct x as [ | index | ];
    [ exfalso; exact (Hnoidle _ Hx) | exfalso; exact (Hnobusy _ _ Hx) | reflexivity ].
Qed.

Lemma all_exited_halted (v : verifier) :
  coord v ≠ Running → all_exited v → halted v.
Proof.
  intros Hc Hall ev. unfold all_exited in Hall.
  assert (Hw : ∀ w x, workers v !! w = Some x → x = Exited).
  { intros w x Hx. exact (proj1 (Forall_lookup _ _) Hall w x Hx). }
  unfold step. destruct ev as [ w | w | | | | w ].
  - destruct (workers v !! w) as [ x | ] eqn:Hx; [ | reflexivity ].
    rewrite (Hw _ _ Hx). reflexivity.
  - destruct (workers v !! w) as [ x | ] eqn:Hx; [ | reflexivity ].
    rewrite (Hw _ _ Hx). reflexivity.
  - destruct (coord v); [ congruence | | ];
      destruct (errors v !! out v) as [ [ | ] | ]; reflexivity.
  - destruct (coord v); [ congruence | reflexivity | reflexivity ].
  - destruct (coord v); [ congruence | reflexivity | reflexivity ].
  - destruct (workers v !! w) as [ x | ] eqn:Hx; [ | reflexivity ].
    rewrite (Hw _ _ Hx). reflexivity.
Qed.

Lemma quiescent_stopped (v : verifier) :
  invariant v → coord v ≠ Running → quiescent v → all_exited v.
Proof.
  intros Hinv Hc Hq.
  destruct (stopped_progress v Hinv Hc) as [(ev & v' & Hne & Hstep) | Hall];
    [ | exact Hall ].
  rewrite (Hq ev Hne) in Hstep. discriminate.
Qed.

Lemma quiescent_complete (v : verifier) :
  invariant v → coord v ≠ Aborted → quiescent v → results v = verdicts.
Proof.
  intros Hinv Hc Hq. destruct (coord v) eqn:Hcv; [ | | congruence ].
  - destruct (running_progress v Hinv Hcv) as (ev & v' & Hne & Hstep).
    rewrite (Hq ev Hne) in Hstep. discriminate.
  - rewrite (inv_results v Hinv), (inv_finished v Hinv Hcv).
    apply take_ge. rewrite verdicts_length. lia.
Qed.

(** Every state can be run to quiescence without a cancellation. *)
Lemma can_finish (m : nat) (v : verifier) :
  remaining v ≤ m → invariant v →
  ∃ evs v', (Abort ∉ evs) ∧ run evs v = Some v' ∧ quiescent v'.
Proof.
  revert v. induction m as [ | m IH ]; intros v Hm Hinv.
  - exists [], v. split; [ apply not_elem_of_nil | ]. split; [ reflexivity | ].
    intros ev _. destruct (step ev v) as [v' | ] eqn:Hstep; [ | reflexivity ].
    pose proof (step_remaining _ _ _ Hinv Hstep). lia.
  - assert (Hmove : (∃ ev v', ev ≠ Abort ∧ step ev v = Some v') ∨ quiescent v).
    { assert (Hc : coord v = Running ∨ coord v ≠ Running)
        by (destruct (coord v); [ left; reflexivity | right; discriminate .. ]).
      destruct Hc as [Hc | Hc].
      - left. exact (running_progress v Hinv Hc).
      - destruct (stopped_progress v Hinv Hc) as [Hstep | Hall];
          [ left; exact Hstep | right ].
        intros ev _. exact (all_exited_halted v Hc Hall ev). }
    destruct Hmove as [(ev & v1 & Hne & Hstep) | Hq].
    + pose proof (step_remaining _ _ _ Hinv Hstep).
      destruct (IH v1 ltac:(lia) (step_invariant _ _ _ Hinv Hstep))
        as (evs & v' & Hno & Hrun & Hq).
      exists (ev :: evs), v'. split; [ | split; [ | exact Hq ] ].
      * apply not_elem_of_cons. split; [ congruence | exact Hno ].
      * simpl. rewrite Hstep. exact Hrun.
    + exists [], v. split; [ apply not_elem_of_nil | ]. split; [ reflexivity | exact Hq ].
Qed.

(** After the cancellation was observed, a move sends nothing and takes
    work out of some worker's hands. *)
Lemma aborted_step (ev : event) (v v' : verifier) :
  coord v = Aborted → step ev v = Some v' →
  coord v' = Aborted ∧ results v' = results v ∧ next_in v' = next_in v
  ∧ sum_list (weight <$> workers v') < sum_list (weight <$> workers v).
Proof.
  intros Hc Hstep. step_cases Hstep; simpl; try congruence.
  all: repeat split; try assumption; try reflexivity.
  all: match goal with
       | Hl : workers ?u !! _ = Some _ |- context [<[_ := ?y]> (workers ?u)] =>
           pose proof (weight_insert _ _ _ y Hl) as Hw; simpl in Hw; lia
       end.
Qed.

Lemma aborted_run (evs : list event) (v v' : verifier) :
  coord v = Aborted → run evs v = Some v' →
  coord v' = Aborted ∧ results v' = results v ∧ next_in v' = next_in v
  ∧ length evs + sum_list (weight <$> workers v')
    ≤ sum_list (weight <$> workers v).
Proof.
  revert v. induction evs as [ | ev evs IH ]; simpl; intros v Hc Hrun.
  - injection Hrun as <-. repeat split; try assumption; lia.
  - destruct (step ev v) as [v1 | ] eqn:Hstep; [ | discriminate ].
    destruct (aborted_step _ _ _ Hc Hstep) as (Hc1 & Hr1 & Ho1 & Hw1).
    destruct (IH v1 Hc1 Hrun) as (Hc' & Hr' & Ho' & Hw').
    repeat split; [ exact Hc' | congruence | congruence | lia ].
Qed.

Lemma weight_bound (l : list worker) : sum_list (weight <$> l) ≤ 2 * length l.
Proof.
  induction l as [ | a l IH ]; simpl; [ lia | ].
  unfold fmap in IH. destruct a; simpl; lia.
Qed.

(** C1: for a batch whose [seals] match its [headers], [VerifyHeaders]
    starts, and there is an execution without cancellation that runs to its
    end and leaves on the results channel exactly one result per header,
    the verdicts in input order.  Whatever the order in which the workers
    are handed and finish their headers, the results channel holds at every
    moment the verdicts of the first headers of the batch in input order;
    an execution that is not cancelled takes a bounded number of moves, can
    always be run to its end, and at its end the channel holds exactly one
    result per header, the result at each position being the verdict of
    [VerifyHeader] on the header at that position. *)
Theorem VerifyHeaders_results_in_input_order :
  ∃ v0, spawn = Some v0 ∧
    (∃ evs v, (Abort ∉ evs) ∧ run evs v0 = Some v ∧ quiescent v
              ∧ results v = verdicts
              ∧ length (results v) = length headers) ∧
    ∀ evs v, Abort ∉ evs → run evs v0 = Some v →
      results v = take (out v) verdicts
      ∧ length evs ≤ 4 * length headers + threads + 1
      ∧ (quiescent v →
           length (results v) = length headers
           ∧ ∀ index header seal,
               headers !! index = Some header → seals !! index = Some seal →
               results v !! index
               = Some (fst (VerifyHeader E chain header seal s)))
      ∧ ∃ evs' v', (Abort ∉ evs') ∧ run evs' v = Some v' ∧ quiescent v'.
Proof.
  destruct spawn as [v0 | ] eqn:Hspawn;
    [ | unfold spawn in Hspawn; rewrite seals_match, Nat.eqb_refl in Hspawn;
        discriminate ].
  exists v0. split; [ reflexivity | ].
  pose proof (spawn_invariant v0 Hspawn) as Hinv0.
  assert (Hc0 : coord v0 ≠ Aborted).
  { unfold spawn in Hspawn. rewrite seals_match, Nat.eqb_refl in Hspawn.
    injection Hspawn as <-. discriminate. }
  split.
  { destruct (can_finish (remaining v0) v0 (le_n _) Hinv0)
      as (evs & v & Hno & Hrun & Hq).
    exists evs, v.
    pose proof (run_invariant _ _ _ Hinv0 Hrun) as Hinv.
    pose proof (run_not_aborted _ _ _ Hno Hc0 Hrun) as Hc.
    pose proof (quiescent_complete v Hinv Hc Hq) as Hres.
    repeat split; try assumption.
    rewrite Hres. apply verdicts_length. }
  intros evs v Hno Hrun.
  pose proof (run_invariant _ _ _ Hinv0 Hrun) as Hinv.
  split; [ exact (inv_results v Hinv) | ].
  split.
  { pose proof (run_remaining _ _ _ Hinv0 Hrun).
    pose proof (spawn_remaining v0 Hspawn). lia. }
  split.
  - intros Hq.
    pose proof (run_not_aborted _ _ _ Hno Hc0 Hrun) as Hc.
    rewrite (quiescent_complete v Hinv Hc Hq).
    split; [ apply verdicts_length | ].
    intros index header seal Hh Hs. unfold verdicts.
    rewrite lookup_zip_with, Hh. simpl. rewrite Hs. reflexivity.
  - exact (can_finish (remaining v) v (le_n _) Hinv).
Qed.

(** C3: in every execution, once the coordinator has observed the cancel
    signal, after however many results, nothing more is sent on the
    results channel and no further header is handed to a worker; from then
    on at most two moves per worker can happen, the execution can always be
    run to its end, and it has ended exactly when every worker has left. *)
Theorem cancellation_stops_results_and_workers
    (v0 : verifier) (evs : list event) (v : verifier) :
  spawn = Some v0 → run evs v0 = Some v → coord v = Aborted →
  ∀ evs' v', run evs' v = Some v' →
    results v' = results v
    ∧ length (results v') = out v
    ∧ next_in v' = next_in v
    ∧ length evs' ≤ 2 * threads
    ∧ (halted v' ↔ all_exited v')
    ∧ ∃ evs'' v'', run evs'' v' = Some v'' ∧ all_exited v''
                   ∧ results v'' = results v.
Proof.
  intros Hspawn Hrun Hc evs' v' Hrun'.
  pose proof (spawn_invariant v0 Hspawn) as Hinv0.
  pose proof (run_invariant _ _ _ Hinv0 Hrun) as Hinv.
  pose proof (run_invariant _ _ _ Hinv Hrun') as Hinv'.
  destruct (aborted_run _ _ _ Hc Hrun') as (Hc' & Hr' & Ho' & Hw').
  assert (Hstopped : coord v' ≠ Running) by congruence.
  split; [ exact Hr' | ].
  split.
  { rewrite Hr', (inv_results v Hinv), length_take, verdicts_length.
    pose proof (inv_out v Hinv). pose proof (inv_next_in v Hinv). lia. }
  split; [ exact Ho' | ].
  split.
  { pose proof (weight_bound (workers v)).
    rewrite (inv_workers_length v Hinv) in *. lia. }
  split.
  { split.
    - intros Hh. apply (quiescent_stopped v' Hinv' Hstopped).
      intros ev _. apply Hh.
    - apply (all_exited_halted v' Hstopped). }
  destruct (can_finish (remaining v') v' (le_n _) Hinv')
    as (evs'' & v'' & _ & Hrun'' & Hq).
  exists evs'', v''.
  destruct (aborted_run _ _ _ Hc' Hrun'') as (Hc'' & Hr'' & _ & _).
  split; [ exact Hrun'' | ]. split; [ | congruence ].
  apply (quiescent_stopped v'' (run_invariant _ _ _ Hinv' Hrun'')); [ congruence | exact Hq ].
Qed.

End BatchVerifier.

(** ** The model at work on the sample batch *)

(** Two workers; the second header is finished before the first, the fifth
    before the fourth: the results still come in input order. *)
Example sample_out_of_order_completion :
  match spawn sampleHeaders sampleSeals 2 with
  | Some v0 =>
      results <$>
        run sampleEngine sampleHeaderReader tt sampleHeaders sampleSeals
          [HandOut 0; HandOut 1; Complete 1; Complete 0; Deliver;
           HandOut 1; Deliver; Complete 1; HandOut 0; HandOut 1;
           Complete 1; Deliver; Complete 0; Deliver; Deliver; Done;
           Exit 0; Exit 1] v0
  | None => None
  end
  = Some [None; None; Some "invalid timestamp"; None; None].
Proof. vm_compute. reflexivity. Qed.

(** A result cannot be sent before the results ahead of it. *)
Example sample_no_overtaking :
  match spawn sampleHeaders sampleSeals 2 with
  | Some v0 =>
      run sampleEngine sampleHeaderReader tt sampleHeaders sampleSeals
        [HandOut 0; HandOut 1; Complete 1; Deliver] v0
  | None => None
  end
  = None.
Proof. vm_compute. reflexivity. Qed.

(** Cancelled after two results: the workers finish what they hold and
    leave, and the channel keeps its two results. *)
Example sample_cancelled_after_two :
  match spawn sampleHeaders sampleSeals 2 with
  | Some v0 =>
      (λ v, (results v, workers v, coord v)) <$>
        run sampleEngine sampleHeaderReader tt sampleHeaders sampleSeals
          [HandOut 0; HandOut 1; Complete 0; Complete 1; Deliver; Deliver;
           HandOut 1; HandOut 0; Abort; Complete 0; Exit 0; Complete 1;
           Exit 1] v0
  | None => None
  end
  = Some ([None; None], [Exited; Exited], Aborted).
Proof. vm_compute. reflexivity. Qed.

(** A batch whose [seals] do not match its [headers] is not started. *)
Example sample_mismatch_refused :
  spawn sampleHeaders [true; true] 2 = None.
Proof. reflexivity. Qed.

Lemma VerifyHeaders_results_in_input_order_witness :
  let v0 :=
    {| next_in := 0; workers := [Idle; Idle];
       errors := [None; None; None; None; None];
       out := 0; results := []; coord := Running |} in
  let evs :=
    [HandOut 0; HandOut 1; Complete 1; Complete 0; Deliver;
     HandOut 1; Deliver; Complete 1; HandOut 0; HandOut 1;
     Complete 1; Deliver; Complete 0; Deliver; Deliver; Done;
     Exit 0; Exit 1] in
  let v :=
    {| next_in := 5; workers := [Exited; Exited];
       errors := [Some None; Some None; Some (Some "invalid timestamp");
                  Some None; Some None];
       out := 5;
       results := [None; None; Some "invalid timestamp"; None; None];
       coord := Finished |} in
  length sampleSeals = length sampleHeaders ∧ 0 < 2
  ∧ spawn sampleHeaders sampleSeals 2 = Some v0
  ∧ run sampleEngine sampleHeaderReader tt sampleHeaders sampleSeals evs v0
    = Some v
  ∧ results v
    = verdicts sampleEngine sampleHeaderReader tt sampleHeaders sampleSeals
  ∧ ∃ v0', spawn sampleHeaders sampleSeals 2 = Some v0' ∧
      (∃ evs' v',
         (Abort ∉ evs')
         ∧ run sampleEngine sampleHeaderReader tt sampleHeaders sampleSeals
             evs' v0' = Some v'
         ∧ quiescent sampleEngine sampleHeaderReader tt sampleHeaders
             sampleSeals v'
         ∧ results v'
           = verdicts sampleEngine sampleHeaderReader tt sampleHeaders
               sampleSeals
         ∧ length (results v') = length sampleHeaders) ∧
      ∀ evs' v', Abort ∉ evs' →
        run sampleEngine sampleHeaderReader tt sampleHeaders sampleSeals
          evs' v0' = Some v' →
        results v'
        = take (out v')
            (verdicts sampleEngine sampleHeaderReader tt sampleHeaders
               sampleSeals)
        ∧ length evs' ≤ 4 * length sampleHeaders + 2 + 1
        ∧ (quiescent sampleEngine sampleHeaderReader tt sampleHeaders
             sampleSeals v' →
             length (results v') = length sampleHeaders
             ∧ ∀ index header seal,
                 sampleHeaders !! index = Some header →
                 sampleSeals !! index = Some seal →
                 results v' !! index
                 = Some (fst (VerifyHeader sampleEngine sampleHeaderReader
                                header seal tt)))
        ∧ ∃ evs'' v'', (Abort ∉ evs'')
            ∧ run sampleEngine sampleHeaderReader tt sampleHeaders
                sampleSeals evs'' v' = Some v''
            ∧ quiescent sampleEngine sampleHeaderReader tt sampleHeaders
                sampleSeals v''.
Proof.
  intros v0 evs v.
  split; [ reflexivity | ]. split; [ lia | ].
  split; [ vm_compute; reflexivity | ].
  split; [ vm_compute; reflexivity | ].
  split; [ vm_compute; reflexivity | ].
  apply (VerifyHeaders_results_in_input_order sampleEngine sampleHeaderReader
           tt sampleHeaders sampleSeals 2); [ reflexivity | lia ].
Defined.

Lemma cancellation_stops_results_and_workers_witness :
  let v0 :=
    {| next_in := 0; workers := [Idle; Idle];
       errors := [None; None; None; None; None];
       out := 0; results := []; coord := Running |} in
  let evs :=
    [HandOut 0; HandOut 1; Complete 1; Complete 0; Deliver; Deliver;
     HandOut 0; Abort] in
  let v :=
    {| next_in := 3; workers := [Busy 2; Idle];
       errors := [Some None; Some None; None; None; None];
       out := 2; results := [None; None]; coord := Aborted |} in
  length sampleSeals = length sampleHeaders ∧ 0 < 2
  ∧ spawn sampleHeaders sampleSeals 2 = Some v0
  ∧ run sampleEngine sampleHeaderReader tt sampleHeaders sampleSeals evs v0
    = Some v
  ∧ coord v = Aborted
  ∧ ∀ evs' v',
      run sampleEngine sampleHeaderReader tt sampleHeaders sampleSeals evs' v
      = Some v' →
      results v' = results v
      ∧ length (results v') = out v
      ∧ next_in v' = next_in v
      ∧ length evs' ≤ 2 * 2
      ∧ (halted sampleEngine sampleHeaderReader tt sampleHeaders sampleSeals v'
         ↔ all_exited v')
      ∧ ∃ evs'' v'',
          run sampleEngine sampleHeaderReader tt sampleHeaders sampleSeals
            evs'' v' = Some v''
          ∧ all_exited v'' ∧ results v'' = results v.
Proof.
  intros v0 evs v.
  assert (Hspawn : spawn sampleHeaders sampleSeals 2 = Some v0)
    by (vm_compute; reflexivity).
  assert (Hrun : run sampleEngine sampleHeaderReader tt sampleHeaders
                   sampleSeals evs v0 = Some v)
    by (vm_compute; reflexivity).
  split; [ reflexivity | ]. split; [ lia | ].
  split; [ exact Hspawn | ]. split; [ exact Hrun | ].
  split; [ reflexivity | ].
  exact (cancellation_stops_results_and_workers sampleEngine
           sampleHeaderReader tt sampleHeaders sampleSeals 2 eq_refl
           ltac:(lia) v0 evs v Hspawn Hrun eq_refl).
Defined.

Local Open Scope Z_scope.

(** ** Facts about the reserved address *)

Lemma SystemAddress_bytes : SystemAddress = replicate 19 0xff ++ [0xfe].
Proof. vm_compute. reflexivity. Qed.

Lemma SystemAddress_length : length SystemAddress = common.AddressLength.
Proof. rewrite SystemAddress_bytes. reflexivity. Qed.

Lemma SystemAddress_literal_digits :
  digits SystemAddress_literal = replicate 39 (Some 15) ++ [Some 14].
Proof. vm_compute. reflexivity. Qed.

(** C6, as the specification words it, fails: the literal has no digit
    [0], no byte of [SystemAddress] is zero, and its last byte is [0xfe]. *)
Lemma SystemAddress_has_no_zero_byte :
  ¬ all_f_with_one_zero_byte SystemAddress
  ∧ Forall (λ b, b ≠ 0x00) SystemAddress
  ∧ Forall (λ d, d ≠ Some 0) (digits SystemAddress_literal).
Proof.
  split; [ | split ].
  - intros (i & _ & Hall).
    specialize (Hall 19%nat ltac:(unfold common.AddressLength; lia)).
    rewrite SystemAddress_bytes in Hall. simpl in Hall.
    destruct (decide (19%nat = i)); inversion Hall.
  - rewrite SystemAddress_bytes. simpl.
    repeat (constructor; [ discriminate | ]). constructor.
  - rewrite SystemAddress_literal_digits. simpl.
    repeat (constructor; [ discriminate | ]). constructor.
Qed.

(** C6, amended: the literal of [SystemAddress] has forty hexadecimal
    digits, all [f] but the last, which is [e]; [SystemAddress] is the fixed
    20-byte address made of nineteen [0xff] bytes followed by [0xfe]; as an
    integer it is [2^160 - 2], so it has exactly one zero bit, the lowest
    one, and no zero byte. *)
Theorem SystemAddress_all_f_but_lowest_bit :
  digits SystemAddress_literal = replicate 39 (Some 15) ++ [Some 14]
  ∧ SystemAddress = replicate 19 0xff ++ [0xfe]
  ∧ length SystemAddress = common.AddressLength
  ∧ common.Big SystemAddress = 2 ^ 160 - 2
  ∧ zero_bits SystemAddress = [0].
Proof.
  split; [ exact SystemAddress_literal_digits | ].
  split; [ exact SystemAddress_bytes | ].
  split; [ exact SystemAddress_length | ].
  rewrite SystemAddress_bytes. split; vm_compute; reflexivity.
Qed.

(** ** What an operation can learn of the stored blocks *)

Lemma by_declared_methods_uses_declared_methods_only {Im St} (E : PoSA Im St) :
  uses_declared_methods_only (by_declared_methods E).
Proof.
  intros op a1 a2 Hsame.
  destruct op; simpl in *; try (destruct a1, a2; reflexivity);
    rewrite Hsame; reflexivity.
Qed.

Lemma declared_methods_blind_unless_ChainReader {Im St}
    (G : Implementation Im St) (op : @operation Im) :
  uses_declared_methods_only G → takes_ChainReader op = false →
  blind_to_blocks G op.
Proof.
  intros Honly Hop c1 c2 s Hsame. unfold call.
  rewrite (Honly op (hand_at c1 (parameter_of op)) (hand_at c2 (parameter_of op)));
    [ reflexivity | ].
  unfold parameter_of. rewrite Hop.
  destruct (takes_no_chain op); simpl; [ exact Logic.I | exact Hsame ].
Qed.

Lemma ChainReader_ops_read_blocks {Im St}
    (E0 : PoSA Im St) (hr : ChainHeaderReader Im) (b : Block Im) (s0 : St)
    (op : @operation Im) :
  takes_ChainReader op = true →
  ¬ blind_to_blocks (by_declared_methods (probing E0)) op.
Proof.
  intros Hop Hblind.
  specialize (Hblind (with_blocks hr (λ _ _, None))
                     (with_blocks hr (λ _ _, Some b)) s0 eq_refl).
  destruct op; simpl in *; try discriminate.
Qed.

Lemma no_chain_blind {Im St} (G : Implementation Im St) (op : @operation Im) :
  takes_no_chain op = true → blind_to_blocks G op.
Proof.
  intros Hop c1 c2 s _. destruct op; simpl in *; try reflexivity; discriminate.
Qed.

Lemma peeking_flag {Im St} (E0 : PoSA Im St) (chain : ChainReader Im)
    (op : @operation Im) (s0 : St) :
  takes_no_chain op = false →
  snd (snd (call (peeking E0) chain op (s0, false))) = finds_block chain.
Proof.
  intros Hop. unfold call, peeking.
  destruct (by_declared_methods E0 op _ _) as [r s'].
  destruct op; simpl in *; try reflexivity; discriminate.
Qed.

Lemma handed_chain_reads_blocks {Im St}
    (E0 : PoSA Im St) (hr : ChainHeaderReader Im) (b : Block Im) (s0 : St)
    (op : @operation Im) :
  takes_no_chain op = false → ¬ blind_to_blocks (peeking E0) op.
Proof.
  intros Hop Hblind.
  specialize (Hblind (with_blocks hr (λ _ _, None))
                     (with_blocks hr (λ _ _, Some b)) (s0, false) eq_refl).
  apply (f_equal (λ x, snd (snd x))) in Hblind.
  rewrite !peeking_flag in Hblind by exact Hop. discriminate Hblind.
Qed.

(** The sample engine, made to probe, tells a chain that stores a block
    from one that stores none, through [Delay] but not through [Prepare]. *)
Example sample_probe :
  call (by_declared_methods (probing samplePoSA))
       (with_blocks sampleHeaderReader (λ _ _, None))
       (@OpDelay sampleImports 11%N) tt
  ≠ call (by_declared_methods (probing samplePoSA))
         (with_blocks sampleHeaderReader (λ _ _, Some 7%N))
         (@OpDelay sampleImports 11%N) tt
  ∧ call (by_declared_methods (probing samplePoSA))
         (with_blocks sampleHeaderReader (λ _ _, None))
         (@OpPrepare sampleImports 11%N) tt
    = call (by_declared_methods (probing samplePoSA))
           (with_blocks sampleHeaderReader (λ _ _, Some 7%N))
           (@OpPrepare sampleImports 11%N) tt.
Proof. split; [ discriminate | reflexivity ]. Qed.

(** C10, as the specification words it, fails: [Prepare] is a header-phase
    operation, the two sample chains answer every header query alike, and
    the [Prepare] that asserts its chain argument to be a [ChainReader]
    accepts the header on the chain that stores no block and refuses it on
    the chain that stores one. *)
Lemma type_assertion_reads_block_bodies :
  header_phase (@OpPrepare sampleImports 11%N) = true
  ∧ same_headers (with_blocks sampleHeaderReader (λ _ _, None))
                 (with_blocks sampleHeaderReader (λ _ _, Some 7%N))
  ∧ call samplePeekingPrepare (with_blocks sampleHeaderReader (λ _ _, None))
         (@OpPrepare sampleImports 11%N) tt
    = ((11%N, None), tt)
  ∧ call samplePeekingPrepare (with_blocks sampleHeaderReader (λ _ _, Some 7%N))
         (@OpPrepare sampleImports 11%N) tt
    = ((11%N, Some "block found"), tt)
  ∧ ¬ (∀ (G : Implementation sampleImports unit) (op : @operation sampleImports),
         header_phase op = true → blind_to_blocks G op).
Proof.
  split; [ reflexivity | ]. split; [ reflexivity | ].
  split; [ reflexivity | ]. split; [ reflexivity | ].
  intros Hall.
  specialize (Hall samplePeekingPrepare (@OpPrepare sampleImports 11%N) eq_refl
                   (with_blocks sampleHeaderReader (λ _ _, None))
                   (with_blocks sampleHeaderReader (λ _ _, Some 7%N))
                   tt eq_refl).
  discriminate Hall.
Qed.

(** C10, amended: under an implementation that uses its chain argument
    through the declared methods only, every header-phase operation
    ([Author], [VerifyHeader], [VerifyHeaders], [Prepare], [Finalize],
    [FinalizeAndAssemble], [Seal], [SealHash], [CalcDifficulty], [APIs])
    gives the same outcome on two chains that agree on every header query,
    whatever blocks they store, and the operations for which this holds
    are exactly those not declared with the full [ChainReader], that is all
    but [VerifyUncles], [Delay], [EnoughDistance] and [AllowLightProcess];
    under implementations that may assert the type of their chain argument,
    the operations whose outcome cannot depend on the stored blocks are
    exactly those that are handed no chain. *)
Theorem header_phase_reads_blocks_only_by_assertion {Im St}
    (E0 : PoSA Im St) (hr : ChainHeaderReader Im) (b : Block Im) (s0 : St)
    (op : @operation Im) :
  (header_phase op = true →
   ∀ G : Implementation Im St,
     uses_declared_methods_only G → blind_to_blocks G op)
  ∧ (takes_ChainReader op = false ↔
     ∀ G : Implementation Im St,
       uses_declared_methods_only G → blind_to_blocks G op)
  ∧ (takes_no_chain op = true ↔
     ∀ (St' : Type) (G : Implementation Im St'), blind_to_blocks G op).
Proof.
  split; [ | split; split ].
  - intros Hop G Honly.
    apply (declared_methods_blind_unless_ChainReader G op Honly).
    destruct op; simpl in *; try reflexivity; discriminate.
  - intros Hop G Honly.
    exact (declared_methods_blind_unless_ChainReader G op Honly Hop).
  - intros Hblind. destruct (takes_ChainReader op) eqn:Hop; [ | reflexivity ].
    exfalso. apply (ChainReader_ops_read_blocks E0 hr b s0 op Hop).
    apply Hblind. apply by_declared_methods_uses_declared_methods_only.
  - intros Hop St' G. exact (no_chain_blind G op Hop).
  - intros Hblind. destruct (takes_no_chain op) eqn:Hop; [ reflexivity | ].
    exfalso. exact (handed_chain_reads_blocks E0 hr b s0 op Hop (Hblind _ _)).
Qed.

Lemma header_phase_reads_blocks_only_by_assertion_witness :
  header_phase (@OpPrepare sampleImports 11%N) = true
  ∧ uses_declared_methods_only (by_declared_methods samplePoSA)
  ∧ blind_to_blocks (by_declared_methods samplePoSA)
      (@OpPrepare sampleImports 11%N).
Proof.
  split; [ reflexivity | ].
  split; [ apply by_declared_methods_uses_declared_methods_only | ].
  apply (proj1 (header_phase_reads_blocks_only_by_assertion samplePoSA
                  sampleHeaderReader 7%N tt (@OpPrepare sampleImports 11%N))).
  - reflexivity.
  - apply by_declared_methods_uses_declared_methods_only.
Defined.
